(** * Low-bit weight packing: [pack_weights] and [unpack_weights]

    A shallow embedding of the two functions defined in
    quantization-in-depth/notebooks/QuantizationInDepth_P4.ipynb, and the
    properties of the packing codec stated over them.

    A one-dimensional [torch.uint8] tensor is a list of integers, each cell
    in [0, 256); Python integers are [Z]; Python exceptions are values of
    [exn], threaded through an error monad.

    Integers and buffer sizes are mathematical: running out of memory or of
    time, and torch's limit of 2^63 on a size, are outside the model.  A
    tensor that exists has fewer than 2^60 cells, so that at a width of at
    most 64 no size computed here comes near that limit and no power of 2 is
    large; the properties below that say that one of the two functions
    returns are about such widths. *)

From stdpp Require Import base numbers list strings pretty.

Local Open Scope Z_scope.

(** ** The error monad *)

(** The exceptions the two functions can raise.  [ValueError] is the one
    raised by the source itself; the others come from the interpreter
    ([8 // 0], and [2 ** bits] for a negative [bits] too large for a float)
    and from torch (a negative size given to [torch.zeros], an index outside
    a tensor). *)
Inductive exn : Type :=
  | ValueError (msg : string)
  | ZeroDivisionError
  | OverflowError
  | RuntimeError
  | IndexError.

Inductive result (A : Type) : Type :=
  | Ok (a : A)
  | Raise (e : exn).
Arguments Ok {A} a.
Arguments Raise {A} e.

#[global] Instance result_ret : MRet result := fun A a => Ok a.
#[global] Instance result_bind : MBind result := fun A B f m =>
  match m with
  | Ok a => f a
  | Raise e => Raise e
  end.

Definition succeeds {A} (m : result A) : Prop := ∃ a, m = Ok a.

(** ** Python and torch primitives *)

Abbreviation tensor := (list Z).

(** The invariant of the [torch.uint8] element type. *)
Definition uint8 (x : Z) : Prop := 0 ≤ x < 256.
Definition uint8_tensor (t : tensor) : Prop := Forall uint8 t.

(** Python's [a // b] on integers: floor division, [ZeroDivisionError] on a
    zero divisor. *)
Definition floordiv (a b : Z) : result Z :=
  if decide (b = 0) then Raise ZeroDivisionError else Ok (a / b).

(** [torch.zeros((n,), dtype=torch.uint8)]: a negative size is refused.  A
    size outside the 64-bit range is refused as well, with an error of
    another kind, and a large one may not fit in memory; neither is modelled
    here (see the head of the file). *)
Definition torch_zeros (n : Z) : result tensor :=
  if decide (n < 0) then Raise RuntimeError else Ok (replicate (Z.to_nat n) 0).

(** [t[i]] for a non-negative index [i]. *)
Definition getitem (t : tensor) (i : nat) : result Z :=
  match t !! i with
  | Some x => Ok x
  | None => Raise IndexError
  end.

(** [t[i] = x] for a non-negative index [i]. *)
Definition setitem (t : tensor) (i : nat) (x : Z) : result tensor :=
  if decide (i < length t)%nat then Ok (<[i:=x]> t) else Raise IndexError.

(** [x << k] on a uint8 cell: the result is again a uint8 cell, the bits
    shifted past bit 7 are lost.  Both functions only shift by [bits * j]
    with [0 <= bits * j < 8] (lemma [shift_amount_in_range]). *)
Definition lshift_u8 (x k : Z) : Z := Z.shiftl x k mod 256.

(** [x >> k] on a uint8 cell. *)
Definition rshift_u8 (x k : Z) : Z := Z.shiftr x k.

(** A Python number: an integer, or a float, of which the two functions
    never use the value. *)
Inductive pynum : Type :=
  | PyInt (z : Z)
  | PyFloat.

(** The least magnitude of an integer that Python cannot convert to a float:
    the conversion rounds to 53 bits, half to even. *)
Definition float_conversion_limit : Z := 2 ^ 1024 - 2 ^ 970.

(** [2 ** bits - 1].  An integer for [bits >= 0].  For a negative [bits]
    Python converts both operands to floats: the conversion of [bits] raises
    [OverflowError] from [float_conversion_limit] on, and the result is a
    float otherwise. *)
Definition pow2_minus_1 (bits : Z) : result pynum :=
  if decide (0 ≤ bits) then Ok (PyInt (2 ^ bits - 1))
  else if decide (bits ≤ - float_conversion_limit) then Raise OverflowError
  else Ok PyFloat.

(** [val & mask] on a uint8 cell.  torch has no bitwise and with a float;
    a float mask never reaches this operation: it arises only for a negative
    [bits], for which the inner loop is empty (lemmas [num_steps_negative]
    and [for_range_nonpos]). *)
Definition and_mask (val : Z) (mask : pynum) : result Z :=
  match mask with
  | PyInt m => Ok (Z.land val m)
  | PyFloat => Raise RuntimeError
  end.

(** [for i in range(n)], threading the loop state; [range(n)] is empty for
    [n <= 0]. *)
Fixpoint for_each {S : Type} (l : list nat) (body : nat → S → result S) (st : S)
    : result S :=
  match l with
  | [] => Ok st
  | i :: l' => st' ← body i st; for_each l' body st'
  end.

Definition for_range {S : Type} (n : Z) (body : nat → S → result S) (st : S)
    : result S :=
  for_each (seq 0 (Z.to_nat n)) body st.

(** ** [pack_weights] *)

Definition length_message (m : Z) : string :=
  "The input length must be a multiple of " +:+ pretty m.

(** The body of the inner loop; the state is [(packed_tensor, unpacked_idx)]:
<<
    packed_tensor[i] |= uint8tensor[unpacked_idx] << (bits * j)
    unpacked_idx += 1
>> *)
Definition pack_body (uint8tensor : tensor) (bits : Z) (i j : nat)
    (st : tensor * nat) : result (tensor * nat) :=
  let '(packed_tensor, unpacked_idx) := st in
  x ← getitem uint8tensor unpacked_idx;
  p ← getitem packed_tensor i;
  packed_tensor ← setitem packed_tensor i (Z.lor p (lshift_u8 x (bits * Z.of_nat j)));
  Ok (packed_tensor, S unpacked_idx).

Definition pack_weights (uint8tensor : tensor) (bits : Z) : result tensor :=
  let shape0 := Z.of_nat (length uint8tensor) in
  if decide ((shape0 * bits) mod 8 ≠ 0) then
    m ← floordiv 8 bits;
    Raise (ValueError (length_message m))
  else
    num_values ← floordiv (shape0 * bits) 8;
    num_steps ← floordiv 8 bits;
    packed_tensor ← torch_zeros num_values;
    st ← for_range num_values (fun i =>
            for_range num_steps (pack_body uint8tensor bits i))
          (packed_tensor, 0%nat);
    Ok st.1.

(** The run of [pack_weights] cut where the body of the inner loop is about
    to run for output byte [i] and sub-position [j]: the state of the loops
    at that point. *)
Definition pack_state_before (uint8tensor : tensor) (bits : Z) (i j : nat)
    : result (tensor * nat) :=
  let shape0 := Z.of_nat (length uint8tensor) in
  if decide ((shape0 * bits) mod 8 ≠ 0) then
    m ← floordiv 8 bits;
    Raise (ValueError (length_message m))
  else
    num_values ← floordiv (shape0 * bits) 8;
    num_steps ← floordiv 8 bits;
    packed_tensor ← torch_zeros num_values;
    st ← for_each (seq 0 i) (fun i' =>
            for_range num_steps (pack_body uint8tensor bits i'))
          (packed_tensor, 0%nat);
    for_each (seq 0 j) (pack_body uint8tensor bits i) st.

(** The rest of that run, from the state [st] on: the steps [j], [j + 1],
    ... of the inner loop for output byte [i], then the output bytes after
    [i], then the return. *)
Definition pack_resume (uint8tensor : tensor) (bits : Z) (i j : nat)
    (st : tensor * nat) : result tensor :=
  let shape0 := Z.of_nat (length uint8tensor) in
  let num_values := shape0 * bits / 8 in
  let num_steps := 8 / bits in
  st ← for_each (seq j (Z.to_nat num_steps - j)) (pack_body uint8tensor bits i) st;
  st ← for_each (seq (S i) (Z.to_nat num_values - S i)) (fun i' =>
          for_range num_steps (pack_body uint8tensor bits i'))
        st;
  Ok st.1.

(** ** [unpack_weights] *)

(** The body of the inner loop; the state is [(unpacked_tensor, unpacked_idx)]:
<<
    val = uint8tensor[i] >> (bits * j)
    unpacked_tensor[unpacked_idx] = val & mask
    unpacked_idx += 1
>> *)
Definition unpack_body (uint8tensor : tensor) (bits : Z) (mask : pynum)
    (i j : nat) (st : tensor * nat) : result (tensor * nat) :=
  let '(unpacked_tensor, unpacked_idx) := st in
  b ← getitem uint8tensor i;
  let val := rshift_u8 b (bits * Z.of_nat j) in
  x ← and_mask val mask;
  unpacked_tensor ← setitem unpacked_tensor unpacked_idx x;
  Ok (unpacked_tensor, S unpacked_idx).

(** [mask = 2 ** bits - 1] is computed after the output is allocated and
    before the loops. *)
Definition unpack_weights (uint8tensor : tensor) (bits : Z) : result tensor :=
  let shape0 := Z.of_nat (length uint8tensor) in
  num_values ← floordiv (shape0 * 8) bits;
  num_steps ← floordiv 8 bits;
  unpacked_tensor ← torch_zeros num_values;
  mask ← pow2_minus_1 bits;
  st ← for_range shape0 (fun i =>
          for_range num_steps (unpack_body uint8tensor bits mask i))
        (unpacked_tensor, 0%nat);
  Ok st.1.

(** The bit widths the packing layout is meant for. *)
Definition supported (bits : Z) : Prop :=
  bits = 1 ∨ bits = 2 ∨ bits = 4 ∨ bits = 8.

(** [8 // bits] for a supported width, as a loop bound. *)
Definition packing_ratio (bits : Z) : nat := Z.to_nat (8 / bits).

(** Every element is representable in [bits] bits. *)
Definition in_range (bits : Z) (v : tensor) : Prop :=
  Forall (fun x => 0 ≤ x ≤ 2 ^ bits - 1) v.

(** ** Loop summaries *)

(** What the inner loop of [pack_weights] leaves in one output byte: the
    elements of [chunk] are or-ed into [acc] at sub-positions [j], [j+1], ... *)
Fixpoint pack_byte (bits : Z) (j : nat) (chunk : list Z) (acc : Z) : Z :=
  match chunk with
  | [] => acc
  | x :: chunk' =>
      pack_byte bits (S j) chunk' (Z.lor acc (lshift_u8 x (bits * Z.of_nat j)))
  end.

(** What the two loops of [pack_weights] write: [n] bytes, each from the next
    [r] elements. *)
Fixpoint pack_chunks (bits : Z) (r n : nat) (v : list Z) : list Z :=
  match n with
  | O => []
  | S n' => pack_byte bits 0 (take r v) 0 :: pack_chunks bits r n' (drop r v)
  end.

(** What the inner loop of [unpack_weights] writes for one input byte. *)
Definition unpack_byte (bits mask : Z) (j0 r : nat) (b : Z) : list Z :=
  (fun j => Z.land (rshift_u8 b (bits * Z.of_nat j)) mask) <$> seq j0 r.

Definition unpack_bytes (bits : Z) (r : nat) (p : list Z) : list Z :=
  p ≫= unpack_byte bits (2 ^ bits - 1) 0 r.

(** ** Finite enumerations

    One byte holds finitely many chunks; the two byte-level laws are decided
    by running the loop summaries on every one of them. *)

(** The integers [0], ..., [n - 1]. *)
Definition range_list (n : nat) : list Z := Z.of_nat <$> seq 0 n.

(** Every list of [r] integers below [m]. *)
Fixpoint all_chunks (m r : nat) : list (list Z) :=
  match r with
  | O => [[]]
  | S r' => x ← range_list m; c ← all_chunks m r'; [x :: c]
  end.

(** Unpacking the byte packed from [c] gives [c] back. *)
Definition chunk_roundtrip (bits : Z) (c : list Z) : Prop :=
  unpack_byte bits (2 ^ bits - 1) 0 (packing_ratio bits) (pack_byte bits 0 c 0) = c.

#[global] Instance chunk_roundtrip_dec (bits : Z) (c : list Z) :
  Decision (chunk_roundtrip bits c) :=
  decide (unpack_byte bits (2 ^ bits - 1) 0 (packing_ratio bits)
            (pack_byte bits 0 c 0) = c).

(** Packing the elements unpacked from [b] gives [b] back. *)
Definition byte_roundtrip (bits : Z) (b : Z) : Prop :=
  pack_byte bits 0 (unpack_byte bits (2 ^ bits - 1) 0 (packing_ratio bits) b) 0 = b.

#[global] Instance byte_roundtrip_dec (bits : Z) (b : Z) :
  Decision (byte_roundtrip bits b) :=
  decide (pack_byte bits 0
            (unpack_byte bits (2 ^ bits - 1) 0 (packing_ratio bits) b) 0 = b).

(** ** Properties of the primitives *)

Lemma bind_Ok {A B} (f : A → result B) (a : A) : (Ok a ≫= f) = f a.
Proof. reflexivity. Qed.

Lemma getitem_Some (t : tensor) (i : nat) (x : Z) :
  t !! i = Some x → getitem t i = Ok x.
Proof. intros H. unfold getitem. by rewrite H. Qed.

Lemma setitem_lt (t : tensor) (i : nat) (x : Z) :
  (i < length t)%nat → setitem t i x = Ok (<[i:=x]> t).
Proof. intros H. unfold setitem. by rewrite decide_True. Qed.

Lemma floordiv_nonzero (a b : Z) : b ≠ 0 → floordiv a b = Ok (a / b).
Proof. intros H. unfold floordiv. by rewrite decide_False. Qed.

Lemma torch_zeros_nonneg (n : Z) :
  0 ≤ n → torch_zeros n = Ok (replicate (Z.to_nat n) 0).
Proof. intros H. unfold torch_zeros. rewrite decide_False; [done | lia]. Qed.

Lemma pow2_minus_1_nonneg (bits : Z) :
  0 ≤ bits → pow2_minus_1 bits = Ok (PyInt (2 ^ bits - 1)).
Proof. intros H. unfold pow2_minus_1. by rewrite decide_True. Qed.

Lemma for_range_unfold {S} (n : Z) (body : nat → S → result S) (st : S) :
  for_range n body st = for_each (seq 0 (Z.to_nat n)) body st.
Proof. reflexivity. Qed.

(** ** The loops of [pack_weights] *)

Section PackLoops.
Variables (v : tensor) (bits : Z).

Lemma pack_body_ok (i j : nat) (packed : tensor) (idx : nat) (x b : Z) :
  v !! idx = Some x →
  packed !! i = Some b →
  pack_body v bits i j (packed, idx)
  = Ok (<[i := Z.lor b (lshift_u8 x (bits * Z.of_nat j))]> packed, S idx).
Proof.
  intros Hx Hb. unfold pack_body.
  rewrite (getitem_Some _ _ _ Hx), bind_Ok.
  rewrite (getitem_Some _ _ _ Hb), bind_Ok.
  rewrite setitem_lt by (by eapply lookup_lt_Some). by rewrite bind_Ok.
Qed.

Lemma pack_inner_loop (i r : nat) :
  ∀ (j0 : nat) (packed : tensor) (idx : nat) (b : Z),
    packed !! i = Some b →
    (idx + r ≤ length v)%nat →
    for_each (seq j0 r) (pack_body v bits i) (packed, idx)
    = Ok (<[i := pack_byte bits j0 (take r (drop idx v)) b]> packed,
          (idx + r)%nat).
Proof.
  induction r as [|r IH]; intros j0 packed idx b Hb Hlen; cbn [for_each seq].
  - rewrite take_0. cbn [pack_byte].
    rewrite list_insert_id by done. by rewrite Nat.add_0_r.
  - destruct (lookup_lt_is_Some_2 v idx) as [x Hx]; [lia |].
    rewrite (pack_body_ok _ _ _ _ _ _ Hx Hb), bind_Ok.
    rewrite (IH (S j0) _ (S idx) (Z.lor b (lshift_u8 x (bits * Z.of_nat j0)))).
    + rewrite list_insert_insert_eq, (drop_S _ _ _ Hx). cbn [take pack_byte].
      by rewrite Nat.add_succ_r.
    + apply list_lookup_insert_eq. by eapply lookup_lt_Some.
    + lia.
Qed.

Lemma pack_outer_loop (num_steps : Z) (n : nat) :
  ∀ (pre : tensor) (idx : nat),
    (idx + n * Z.to_nat num_steps ≤ length v)%nat →
    for_each (seq (length pre) n)
      (fun i => for_range num_steps (pack_body v bits i))
      (pre ++ replicate n 0, idx)
    = Ok (pre ++ pack_chunks bits (Z.to_nat num_steps) n (drop idx v),
          (idx + n * Z.to_nat num_steps)%nat).
Proof.
  induction n as [|n IH]; intros pre idx Hlen;
    cbn [for_each seq replicate pack_chunks].
  - by rewrite Nat.add_0_r.
  - rewrite for_range_unfold.
    rewrite (pack_inner_loop _ _ 0%nat _ idx 0);
      [| by apply list_lookup_middle | lia].
    rewrite bind_Ok, insert_app_r_alt, Nat.sub_diag by done.
    cbn [list_insert insert].
    rewrite (cons_middle _ pre), app_assoc.
    replace (S (length pre)) with (length (pre ++ [pack_byte bits 0
      (take (Z.to_nat num_steps) (drop idx v)) 0]))
      by (rewrite length_app; simpl; lia).
    rewrite IH by lia.
    rewrite <- app_assoc, drop_drop. cbn [app].
    do 2 f_equal. lia.
Qed.
End PackLoops.

(** For a positive bit width and an aligned length, [pack_weights] returns,
    and its result is [pack_chunks] of the input. *)
Lemma pack_weights_summary (v : tensor) (bits : Z) :
  0 < bits →
  (Z.of_nat (length v) * bits) mod 8 = 0 →
  pack_weights v bits
  = Ok (pack_chunks bits (Z.to_nat (8 / bits))
          (Z.to_nat (Z.of_nat (length v) * bits / 8)) v).
Proof.
  intros Hbits Hal. unfold pack_weights.
  rewrite decide_False by (intros H; by apply H).
  rewrite !floordiv_nonzero, !bind_Ok by lia.
  assert (0 ≤ Z.of_nat (length v) * bits / 8) as Hq
    by (apply Z.div_pos; lia).
  assert (0 ≤ 8 / bits) as Hr by (apply Z.div_pos; lia).
  rewrite torch_zeros_nonneg, bind_Ok by done.
  rewrite for_range_unfold.
  pose proof (pack_outer_loop v bits (8 / bits)
    (Z.to_nat (Z.of_nat (length v) * bits / 8)) [] 0%nat) as Hloop.
  cbn [length app] in Hloop. rewrite Hloop.
  - by rewrite bind_Ok.
  - pose proof (Z.mul_div_le (Z.of_nat (length v) * bits) 8 ltac:(lia)).
    pose proof (Z.mul_div_le 8 bits Hbits).
    apply Nat2Z.inj_le. rewrite Nat.add_0_l, Nat2Z.inj_mul, !Z2Nat.id by done.
    nia.
Qed.

(** ** The loops of [unpack_weights] *)

Section UnpackLoops.
Variables (p : tensor) (bits mask : Z).

Lemma unpack_body_ok (i j : nat) (out : tensor) (idx : nat) (b : Z) :
  p !! i = Some b →
  (idx < length out)%nat →
  unpack_body p bits (PyInt mask) i j (out, idx)
  = Ok (<[idx := Z.land (rshift_u8 b (bits * Z.of_nat j)) mask]> out, S idx).
Proof.
  intros Hb Hidx. unfold unpack_body.
  rewrite (getitem_Some _ _ _ Hb), bind_Ok. cbn [and_mask]. rewrite bind_Ok.
  rewrite setitem_lt by done. by rewrite bind_Ok.
Qed.

Lemma unpack_inner_loop (i : nat) (b : Z) (r : nat) :
  p !! i = Some b →
  ∀ (j0 : nat) (pre rest : tensor),
    (r ≤ length rest)%nat →
    for_each (seq j0 r) (unpack_body p bits (PyInt mask) i) (pre ++ rest, length pre)
    = Ok (pre ++ unpack_byte bits mask j0 r b ++ drop r rest,
          (length pre + r)%nat).
Proof.
  intros Hb. unfold unpack_byte.
  induction r as [|r IH]; intros j0 pre rest Hlen; cbn [for_each seq fmap list_fmap].
  - by rewrite drop_0, Nat.add_0_r.
  - destruct rest as [|z rest]; [simpl in Hlen; lia |].
    rewrite (unpack_body_ok _ _ _ _ _ Hb), bind_Ok
      by (rewrite length_app; simpl; lia).
    rewrite insert_app_r_alt, Nat.sub_diag by done. cbn [list_insert insert].
    rewrite (cons_middle _ pre), app_assoc.
    replace (S (length pre)) with
      (length (pre ++ [Z.land (rshift_u8 b (bits * Z.of_nat j0)) mask]))
      by (rewrite length_app; simpl; lia).
    rewrite IH by (simpl in Hlen; lia).
    rewrite <- app_assoc, length_app. cbn [app length drop].
    do 2 f_equal. lia.
Qed.

Lemma unpack_outer_loop (num_steps : Z) (n : nat) :
  ∀ (i0 : nat) (pre rest : tensor),
    (i0 + n ≤ length p)%nat →
    (n * Z.to_nat num_steps ≤ length rest)%nat →
    for_each (seq i0 n)
      (fun i => for_range num_steps (unpack_body p bits (PyInt mask) i))
      (pre ++ rest, length pre)
    = Ok (pre
          ++ (take n (drop i0 p) ≫= unpack_byte bits mask 0 (Z.to_nat num_steps))
          ++ drop (n * Z.to_nat num_steps) rest,
          (length pre + n * Z.to_nat num_steps)%nat).
Proof.
  induction n as [|n IH]; intros i0 pre rest Hp Hrest; cbn [for_each seq].
  - by rewrite take_0, drop_0, Nat.add_0_r.
  - destruct (lookup_lt_is_Some_2 p i0) as [b Hb]; [lia |].
    rewrite for_range_unfold.
    rewrite (unpack_inner_loop _ _ _ Hb), bind_Ok by lia.
    set (U := unpack_byte bits mask 0 (Z.to_nat num_steps) b).
    assert (length U = Z.to_nat num_steps) as HU
      by (unfold U, unpack_byte; by rewrite length_fmap, length_seq).
    rewrite app_assoc.
    replace (length pre + Z.to_nat num_steps)%nat with (length (pre ++ U))
      by (rewrite length_app; lia).
    rewrite IH by (rewrite ?length_drop; lia).
    rewrite (drop_S _ _ _ Hb). cbn [take]. rewrite bind_cons. fold U.
    rewrite drop_drop, length_app, <- !app_assoc.
    rewrite HU. replace (S n * Z.to_nat num_steps)%nat
      with (Z.to_nat num_steps + n * Z.to_nat num_steps)%nat by lia.
    by rewrite Nat.add_assoc.
Qed.
End UnpackLoops.

(** For a positive bit width [unpack_weights] returns on every input; its
    result is [unpack_bytes] of the input, followed by the cells the loops
    never reach when [bits] does not divide 8. *)
Lemma unpack_weights_summary (p : tensor) (bits : Z) :
  0 < bits →
  unpack_weights p bits
  = Ok (unpack_bytes bits (Z.to_nat (8 / bits)) p
        ++ replicate (Z.to_nat (Z.of_nat (length p) * 8 / bits)
                      - length p * Z.to_nat (8 / bits)) 0).
Proof.
  intros Hbits. unfold unpack_weights, unpack_bytes.
  rewrite !floordiv_nonzero, !bind_Ok by lia.
  assert (0 ≤ Z.of_nat (length p) * 8 / bits) as Hq
    by (apply Z.div_pos; lia).
  assert (0 ≤ 8 / bits) as Hr by (apply Z.div_pos; lia).
  rewrite torch_zeros_nonneg, bind_Ok by done.
  rewrite pow2_minus_1_nonneg, bind_Ok by lia.
  rewrite for_range_unfold, Nat2Z.id.
  pose proof (unpack_outer_loop p bits (2 ^ bits - 1) (8 / bits) (length p)
    0%nat [] (replicate (Z.to_nat (Z.of_nat (length p) * 8 / bits)) 0)) as Hloop.
  cbn [length app] in Hloop. rewrite Hloop.
  - rewrite bind_Ok. cbn [fst]. rewrite drop_0, firstn_all.
    by rewrite drop_replicate.
  - lia.
  - rewrite length_replicate.
    pose proof (Z.mul_div_le 8 bits Hbits).
    apply Nat2Z.inj_le. rewrite Nat2Z.inj_mul, !Z2Nat.id by done.
    apply Z.div_le_lower_bound; [done | nia].
Qed.

(** ** One byte *)

Lemma elem_of_range_list (n : nat) (x : Z) :
  0 ≤ x < Z.of_nat n → x ∈ range_list n.
Proof.
  intros Hx. unfold range_list. apply list_elem_of_fmap.
  exists (Z.to_nat x). split; [lia |]. apply elem_of_seq. lia.
Qed.

Lemma elem_of_all_chunks (m : nat) (c : list Z) :
  Forall (fun x => 0 ≤ x < Z.of_nat m) c → c ∈ all_chunks m (length c).
Proof.
  induction 1 as [|x c Hx Hc IH]; cbn [length all_chunks].
  - apply list_elem_of_singleton. done.
  - apply list_elem_of_bind. exists x. split; [| by apply elem_of_range_list].
    apply list_elem_of_bind. exists c. split; [| done].
    by apply list_elem_of_singleton.
Qed.

Lemma supported_pos (bits : Z) : supported bits → 0 < bits.
Proof. unfold supported. lia. Qed.

Lemma supported_ratio (bits : Z) :
  supported bits → bits * (8 / bits) = 8.
Proof. by intros [->|[->|[->| ->]]]. Qed.

Lemma all_chunks_roundtrip (bits : Z) :
  supported bits →
  Forall (chunk_roundtrip bits)
    (all_chunks (Z.to_nat (2 ^ bits)) (packing_ratio bits)).
Proof.
  intros [->|[->|[->| ->]]]; apply (bool_decide_unpack _); by vm_compute.
Qed.

Lemma all_bytes_roundtrip (bits : Z) :
  supported bits → Forall (byte_roundtrip bits) (range_list 256).
Proof.
  intros [->|[->|[->| ->]]]; apply (bool_decide_unpack _); by vm_compute.
Qed.

(** Unpacking inverts packing on one byte, for a full chunk of elements that
    fit in [bits] bits. *)
Lemma unpack_pack_byte (bits : Z) (c : list Z) :
  supported bits →
  length c = packing_ratio bits →
  in_range bits c →
  chunk_roundtrip bits c.
Proof.
  intros Hs Hlen Hc.
  pose proof (all_chunks_roundtrip bits Hs) as Hall.
  rewrite Forall_forall in Hall. apply Hall. rewrite <- Hlen.
  apply elem_of_all_chunks. eapply Forall_impl; [exact Hc |].
  intros x Hx. cbv beta in Hx.
  assert (0 < 2 ^ bits) by (apply Z.pow_pos_nonneg; [lia | apply supported_pos in Hs; lia]).
  lia.
Qed.

(** Packing inverts unpacking on one byte. *)
Lemma pack_unpack_byte (bits : Z) (b : Z) :
  supported bits → uint8 b → byte_roundtrip bits b.
Proof.
  intros Hs Hb.
  pose proof (all_bytes_roundtrip bits Hs) as Hall.
  rewrite Forall_forall in Hall. apply Hall.
  apply elem_of_range_list. unfold uint8 in Hb. lia.
Qed.

Lemma length_unpack_byte (bits mask : Z) (j0 r : nat) (b : Z) :
  length (unpack_byte bits mask j0 r b) = r.
Proof. unfold unpack_byte. by rewrite length_fmap, length_seq. Qed.

Lemma uint8_iff_land (x : Z) : uint8 x ↔ Z.land x (Z.ones 8) = x.
Proof.
  unfold uint8. rewrite Z.land_ones by lia. change (2 ^ 8) with 256. split.
  - intros H. by apply Z.mod_small.
  - intros <-. apply Z.mod_pos_bound. lia.
Qed.

Lemma uint8_lor (x y : Z) : uint8 x → uint8 y → uint8 (Z.lor x y).
Proof.
  rewrite !uint8_iff_land. intros Hx Hy.
  by rewrite Z.land_lor_distr_l, Hx, Hy.
Qed.

Lemma uint8_lshift (x k : Z) : uint8 (lshift_u8 x k).
Proof. unfold uint8, lshift_u8. apply Z.mod_pos_bound. lia. Qed.

Lemma uint8_pack_byte (bits : Z) (c : list Z) :
  ∀ (j : nat) (acc : Z), uint8 acc → uint8 (pack_byte bits j c acc).
Proof.
  induction c as [|x c IH]; intros j acc Hacc; cbn [pack_byte]; [done |].
  apply IH, uint8_lor; [done | apply uint8_lshift].
Qed.

(** ** Whole buffers *)

Lemma length_pack_chunks (bits : Z) (r n : nat) :
  ∀ v : list Z, length (pack_chunks bits r n v) = n.
Proof. induction n as [|n IH]; intros v; cbn [pack_chunks length]; by rewrite ?IH. Qed.

Lemma uint8_pack_chunks (bits : Z) (r n : nat) :
  ∀ v : list Z, uint8_tensor (pack_chunks bits r n v).
Proof.
  induction n as [|n IH]; intros v; cbn [pack_chunks]; constructor.
  - apply uint8_pack_byte. unfold uint8. lia.
  - apply IH.
Qed.

Lemma length_unpack_bytes (bits : Z) (r : nat) (p : list Z) :
  length (unpack_bytes bits r p) = (length p * r)%nat.
Proof.
  unfold unpack_bytes. induction p as [|b p IH]; [done |].
  rewrite bind_cons, length_app, length_unpack_byte, IH. simpl. lia.
Qed.

Lemma in_range_unpack_bytes (bits : Z) (r : nat) (p : list Z) :
  0 ≤ bits → in_range bits (unpack_bytes bits r p).
Proof.
  intros Hbits. unfold in_range, unpack_bytes, unpack_byte.
  apply Forall_bind, Forall_forall. intros b _.
  apply Forall_fmap, Forall_forall. intros j _. unfold compose.
  change (2 ^ bits - 1) with (Z.pred (2 ^ bits)).
  rewrite <- Z.ones_equiv, Z.land_ones, Z.ones_equiv by done.
  pose proof (Z.mod_pos_bound (rshift_u8 b (bits * Z.of_nat j)) (2 ^ bits)
    ltac:(by apply Z.pow_pos_nonneg)).
  lia.
Qed.

Lemma unpack_pack_chunks (bits : Z) (n : nat) :
  supported bits →
  ∀ v : list Z,
    in_range bits v →
    (n * packing_ratio bits ≤ length v)%nat →
    unpack_bytes bits (packing_ratio bits) (pack_chunks bits (packing_ratio bits) n v)
    = take (n * packing_ratio bits) v.
Proof.
  intros Hs. unfold unpack_bytes.
  induction n as [|n IH]; intros v Hv Hlen; cbn [pack_chunks]; [done |].
  rewrite bind_cons, IH.
  - rewrite (unpack_pack_byte bits (take (packing_ratio bits) v)); [| done | |].
    + by rewrite take_take_drop.
    + rewrite length_take. lia.
    + by apply Forall_take.
  - by apply Forall_drop.
  - rewrite length_drop. lia.
Qed.

Lemma pack_unpack_bytes (bits : Z) (p : list Z) :
  supported bits →
  uint8_tensor p →
  pack_chunks bits (packing_ratio bits) (length p)
    (unpack_bytes bits (packing_ratio bits) p) = p.
Proof.
  intros Hs. unfold unpack_bytes.
  induction 1 as [|b p Hb Hp IH]; [done |].
  rewrite bind_cons. cbn [length pack_chunks].
  rewrite take_app_length', drop_app_length' by (by rewrite length_unpack_byte).
  rewrite IH. f_equal. by apply pack_unpack_byte.
Qed.

(** ** Arithmetic of the loop bounds *)

Lemma shift_amount_in_range (bits : Z) (j : nat) :
  0 < bits → (j < Z.to_nat (8 / bits))%nat → 0 ≤ bits * Z.of_nat j < 8.
Proof.
  intros Hbits Hj. pose proof (Z.mul_div_le 8 bits Hbits).
  assert (0 ≤ 8 / bits) by (apply Z.div_pos; lia). nia.
Qed.

Lemma aligned_length (bits len : Z) :
  supported bits →
  len mod (8 / bits) = 0 ↔ (len * bits) mod 8 = 0.
Proof.
  intros [->|[->|[->| ->]]];
    [change (8 / 1) with 8 | change (8 / 2) with 4
    | change (8 / 4) with 2 | change (8 / 8) with 1];
    Z.to_euclidean_division_equations; lia.
Qed.

Lemma packed_count (bits : Z) (len : nat) :
  supported bits →
  (Z.of_nat len * bits) mod 8 = 0 →
  (Z.to_nat (Z.of_nat len * bits / 8) * packing_ratio bits)%nat = len.
Proof.
  intros Hs Hal. unfold packing_ratio.
  pose proof (supported_pos _ Hs) as Hbits.
  pose proof (supported_ratio _ Hs) as Hr.
  assert (0 ≤ 8 / bits) by (apply Z.div_pos; lia).
  assert (0 ≤ Z.of_nat len * bits / 8) by (apply Z.div_pos; lia).
  pose proof (Z.div_mod (Z.of_nat len * bits) 8 ltac:(lia)) as Hdm.
  rewrite Hal in Hdm.
  apply Nat2Z.inj. rewrite Nat2Z.inj_mul, !Z2Nat.id by done. nia.
Qed.

Lemma unpacked_count (bits : Z) (len : nat) :
  supported bits →
  Z.of_nat len * 8 / bits = Z.of_nat len * (8 / bits).
Proof.
  intros [->|[->|[->| ->]]];
    [change (8 / 1) with 8 | change (8 / 2) with 4
    | change (8 / 4) with 2 | change (8 / 8) with 1];
    Z.to_euclidean_division_equations; lia.
Qed.

(** For a supported width the two summaries take their exact form. *)
Lemma unpack_weights_supported (p : tensor) (bits : Z) :
  supported bits →
  unpack_weights p bits = Ok (unpack_bytes bits (packing_ratio bits) p).
Proof.
  intros Hs. rewrite unpack_weights_summary by (by apply supported_pos).
  rewrite (unpacked_count _ _ Hs). fold (packing_ratio bits).
  assert (0 ≤ 8 / bits) by (apply Z.div_pos; [lia | by apply supported_pos]).
  replace (Z.to_nat (Z.of_nat (length p) * (8 / bits)))
    with (length p * packing_ratio bits)%nat by (unfold packing_ratio; lia).
  by rewrite Nat.sub_diag, app_nil_r.
Qed.

Lemma pack_weights_misaligned (v : tensor) (bits : Z) :
  bits ≠ 0 →
  (Z.of_nat (length v) * bits) mod 8 ≠ 0 →
  pack_weights v bits = Raise (ValueError (length_message (8 / bits))).
Proof.
  intros Hbits Hal. unfold pack_weights.
  rewrite decide_True by done. by rewrite floordiv_nonzero.
Qed.

(** For a non-positive loop bound the loop body never runs; this is the case
    of the inner loops for a negative [bits], so that no shift by a negative
    amount is ever computed. *)
Lemma for_range_nonpos {S} (n : Z) (body : nat → S → result S) (st : S) :
  n ≤ 0 → for_range n body st = Ok st.
Proof. intros Hn. unfold for_range. by replace (Z.to_nat n) with 0%nat by lia. Qed.

Lemma num_steps_negative (bits : Z) : bits < 0 → 8 / bits ≤ 0.
Proof.
  intros Hbits. pose proof (Z.div_mod 8 bits ltac:(lia)).
  pose proof (Z.mod_neg_bound 8 bits Hbits). nia.
Qed.

(** Packing what [unpack_weights] returns for a byte sequence gives the byte
    sequence back. *)
Lemma pack_unpack_weights (p : tensor) (bits : Z) :
  supported bits →
  uint8_tensor p →
  pack_weights (unpack_bytes bits (packing_ratio bits) p) bits = Ok p.
Proof.
  intros Hs Hp. pose proof (supported_pos _ Hs) as Hbits.
  assert (0 ≤ 8 / bits) as Hr by (apply Z.div_pos; lia).
  assert (Z.of_nat (length (unpack_bytes bits (packing_ratio bits) p)) * bits
          = Z.of_nat (length p) * 8) as Hlen.
  { rewrite length_unpack_bytes, Nat2Z.inj_mul. unfold packing_ratio.
    rewrite Z2Nat.id, <- Z.mul_assoc, (Z.mul_comm (8 / bits)) by done.
    by rewrite supported_ratio. }
  rewrite pack_weights_summary; [| done | by rewrite Hlen, Z.mod_mul].
  rewrite Hlen, Z.div_mul, Nat2Z.id by done.
  fold (packing_ratio bits). by rewrite pack_unpack_bytes.
Qed.

(** * The properties of the codec *)

(** C1. Round trip: for a supported bit width, a sequence whose length is a
    multiple of [8 / bits] and whose elements all lie in [0, 2^bits - 1] is
    packed by [pack_weights], and [unpack_weights] returns exactly that
    sequence from the packed buffer. *)
Theorem unpack_pack_roundtrip (v : tensor) (bits : Z) :
  supported bits →
  Z.of_nat (length v) mod (8 / bits) = 0 →
  in_range bits v →
  ∃ p, pack_weights v bits = Ok p ∧ unpack_weights p bits = Ok v.
Proof.
  intros Hs Hlen Hv. apply (aligned_length _ _ Hs) in Hlen.
  eexists. split.
  - apply pack_weights_summary; [by apply supported_pos | done].
  - rewrite unpack_weights_supported by done. fold (packing_ratio bits).
    rewrite unpack_pack_chunks by (rewrite ?packed_count; done).
    rewrite packed_count by done. by rewrite firstn_all.
Qed.

Lemma unpack_pack_roundtrip_witness :
  ∃ p, pack_weights [3; 0; 2; 1; 1; 1; 0; 3] 2 = Ok p
       ∧ unpack_weights p 2 = Ok [3; 0; 2; 1; 1; 1; 0; 3].
Proof.
  apply unpack_pack_roundtrip.
  - right. left. reflexivity.
  - reflexivity.
  - repeat constructor; simpl; lia.
Defined.

(** C2, as the code has it.  [pack_weights] has no range check: for a
    supported width and an aligned length it returns a buffer for every uint8
    input, also when an element exceeds [2^bits - 1]; byte [i] is the OR of
    the elements of chunk [i], each shifted by [bits * j] and cut to 8 bits. *)
Theorem pack_no_range_check (v : tensor) (bits : Z) :
  supported bits →
  uint8_tensor v →
  Z.of_nat (length v) mod (8 / bits) = 0 →
  pack_weights v bits
  = Ok (pack_chunks bits (packing_ratio bits)
          (Z.to_nat (Z.of_nat (length v) * bits / 8)) v).
Proof.
  intros Hs _ Hlen. apply (aligned_length _ _ Hs) in Hlen.
  apply pack_weights_summary; [by apply supported_pos | done].
Qed.

Lemma pack_no_range_check_witness :
  pack_weights [1; 4; 0; 0] 2
  = Ok (pack_chunks 2 (packing_ratio 2) (Z.to_nat (Z.of_nat 4 * 2 / 8)) [1; 4; 0; 0]).
Proof.
  apply (pack_no_range_check [1; 4; 0; 0] 2).
  - right. left. reflexivity.
  - repeat constructor; unfold uint8; lia.
  - reflexivity.
Defined.

(** C2 as stated fails: [4] does not fit in 2 bits, yet
    [pack_weights [1; 4; 0; 0] 2] raises nothing and returns [[17]]. *)
Lemma pack_out_of_range_returns :
  uint8_tensor [1; 4; 0; 0]
  ∧ ¬ in_range 2 [1; 4; 0; 0]
  ∧ pack_weights [1; 4; 0; 0] 2 = Ok [17]
  ∧ ¬ ∃ e, pack_weights [1; 4; 0; 0] 2 = Raise e.
Proof.
  split; [repeat constructor; unfold uint8; lia |].
  split; [| split; [reflexivity | by intros [e He]]].
  intros H. apply Forall_cons in H as [_ H]. apply Forall_cons in H as [H _].
  simpl in H. lia.
Qed.

(** C3, as the code has it.  Neither function checks the bit width.  For
    [bits = 0] both stop with [ZeroDivisionError] at [// bits], before the
    output is allocated.  For every width from 1 to 8, the unsupported 3, 5,
    6 and 7 like the supported ones, [unpack_weights] returns on every input
    and [pack_weights] returns whenever [len * bits] is a multiple of 8. *)
Theorem bit_width_not_checked (v p : tensor) (bits : Z) :
  (bits = 0 →
     pack_weights v bits = Raise ZeroDivisionError
     ∧ unpack_weights p bits = Raise ZeroDivisionError)
  ∧ (1 ≤ bits ≤ 8 →
       succeeds (unpack_weights p bits)
       ∧ ((Z.of_nat (length v) * bits) mod 8 = 0 → succeeds (pack_weights v bits))).
Proof.
  split.
  - intros ->. split; [| reflexivity].
    unfold pack_weights. rewrite Z.mul_0_r. reflexivity.
  - intros Hbits. split.
    + eexists. apply unpack_weights_summary. lia.
    + intros Hal. eexists. apply pack_weights_summary; [lia | done].
Qed.

Lemma bit_width_not_checked_witness :
  (pack_weights [1; 2; 3; 4; 5; 6; 7; 0] 0 = Raise ZeroDivisionError
   ∧ unpack_weights [177] 0 = Raise ZeroDivisionError)
  ∧ succeeds (unpack_weights [177] 3)
  ∧ succeeds (pack_weights [1; 2; 3; 4; 5; 6; 7; 0] 3).
Proof.
  split; [| split].
  - apply (proj1 (bit_width_not_checked [1; 2; 3; 4; 5; 6; 7; 0] [177] 0)).
    reflexivity.
  - apply (proj2 (bit_width_not_checked [1; 2; 3; 4; 5; 6; 7; 0] [177] 3)). lia.
  - apply (proj2 (bit_width_not_checked [1; 2; 3; 4; 5; 6; 7; 0] [177] 3)).
    + lia.
    + reflexivity.
Defined.

(** C3 as stated fails: 3 is not a supported width, yet both functions
    return a result for it. *)
Lemma unsupported_width_returns :
  ¬ supported 3
  ∧ pack_weights [1; 2; 3; 4; 5; 6; 7; 0] 3 = Ok [17; 35; 53]
  ∧ unpack_weights [177] 3 = Ok [1; 6].
Proof.
  split; [unfold supported; lia |]. split; reflexivity.
Qed.

(** C4. Misaligned length: for a supported width, when [len * bits] is not a
    multiple of 8, [pack_weights] raises the length error, whose message
    names the required multiple [8 // bits], and returns no buffer; so does
    [pack_weights [1; 2; 3] 2], which asks for a multiple of 4. *)
Theorem pack_misaligned_length (v : tensor) (bits : Z) :
  supported bits →
  (Z.of_nat (length v) * bits) mod 8 ≠ 0 →
  pack_weights v bits = Raise (ValueError (length_message (8 / bits)))
  ∧ pack_weights [1; 2; 3] 2
    = Raise (ValueError "The input length must be a multiple of 4").
Proof.
  intros Hs Hal. split; [| reflexivity].
  apply pack_weights_misaligned; [| done].
  apply supported_pos in Hs. lia.
Qed.

Lemma pack_misaligned_length_witness :
  pack_weights [1; 0; 1; 1; 0] 4 = Raise (ValueError (length_message (8 / 4)))
  ∧ pack_weights [1; 2; 3] 2
    = Raise (ValueError "The input length must be a multiple of 4").
Proof.
  apply (pack_misaligned_length [1; 0; 1; 1; 0] 4).
  - right. right. left. reflexivity.
  - vm_compute. lia.
Defined.

(** C5. Exact output lengths: for a supported width, [pack_weights] returns
    on every aligned input, every buffer it returns has [len * bits / 8]
    bytes, and [unpack_weights] returns, on every byte sequence, a sequence
    of [len * 8 / bits] elements. *)
Theorem output_lengths (v p : tensor) (bits : Z) :
  supported bits →
  ((Z.of_nat (length v) * bits) mod 8 = 0 → succeeds (pack_weights v bits))
  ∧ (∀ out, pack_weights v bits = Ok out →
       Z.of_nat (length out) = Z.of_nat (length v) * bits / 8)
  ∧ (∃ out, unpack_weights p bits = Ok out
       ∧ Z.of_nat (length out) = Z.of_nat (length p) * 8 / bits).
Proof.
  intros Hs. pose proof (supported_pos _ Hs) as Hbits. split; [| split].
  - intros Hal. eexists. by apply pack_weights_summary.
  - intros out Hout.
    destruct (decide ((Z.of_nat (length v) * bits) mod 8 = 0)) as [Hal|Hal].
    + rewrite pack_weights_summary in Hout by done. injection Hout as <-.
      rewrite length_pack_chunks, Z2Nat.id; [done |]. apply Z.div_pos; lia.
    + rewrite pack_weights_misaligned in Hout by (done || lia). discriminate.
  - eexists. split; [by apply unpack_weights_supported |].
    rewrite length_unpack_bytes, (unpacked_count _ _ Hs). unfold packing_ratio.
    rewrite Nat2Z.inj_mul, Z2Nat.id; [done |]. apply Z.div_pos; lia.
Qed.

Lemma output_lengths_witness :
  succeeds (pack_weights [9; 3; 12; 15] 4)
  ∧ (∃ out, unpack_weights [177; 27; 0] 2 = Ok out
       ∧ Z.of_nat (length out) = Z.of_nat 3 * 8 / 2).
Proof.
  destruct (output_lengths [9; 3; 12; 15] [177; 27; 0] 4) as (H1 & _ & _);
    [right; right; left; reflexivity |].
  destruct (output_lengths [9; 3; 12; 15] [177; 27; 0] 2) as (_ & _ & H3);
    [right; left; reflexivity |].
  split; [apply H1; reflexivity | exact H3].
Defined.

(** C6. The least-significant-first layout on the literal scenarios:
    [1; 0; 3; 2] packs at 2 bits to [177] and [177] unpacks to [1; 0; 3; 2];
    [15; 0] packs at 4 bits to [15] and [255] unpacks to [15; 15]. *)
Theorem bit_layout_scenarios :
  pack_weights [1; 0; 3; 2] 2 = Ok [177]
  ∧ unpack_weights [177] 2 = Ok [1; 0; 3; 2]
  ∧ pack_weights [15; 0] 4 = Ok [15]
  ∧ unpack_weights [255] 4 = Ok [15; 15].
Proof. repeat split; reflexivity. Qed.

(** C7. Unpack-then-pack is the identity on the image of pack: when
    [pack_weights] with a supported width returned the buffer [p],
    [unpack_weights] returns on [p] and packing its result gives [p] again. *)
Theorem pack_unpack_identity (v p : tensor) (bits : Z) :
  supported bits →
  pack_weights v bits = Ok p →
  ∃ u, unpack_weights p bits = Ok u ∧ pack_weights u bits = Ok p.
Proof.
  intros Hs Hp. pose proof (supported_pos _ Hs) as Hbits.
  destruct (decide ((Z.of_nat (length v) * bits) mod 8 = 0)) as [Hal|Hal].
  - rewrite pack_weights_summary in Hp by done. injection Hp as <-.
    eexists. split; [by apply unpack_weights_supported |].
    apply pack_unpack_weights; [done | apply uint8_pack_chunks].
  - rewrite pack_weights_misaligned in Hp by (done || lia). discriminate.
Qed.

Lemma pack_unpack_identity_witness :
  ∃ u, unpack_weights [177; 27] 2 = Ok u ∧ pack_weights u 2 = Ok [177; 27].
Proof.
  apply (pack_unpack_identity [1; 0; 3; 2; 3; 2; 1; 0] [177; 27] 2).
  - right. left. reflexivity.
  - reflexivity.
Defined.

(** C8. Empty buffers: for every supported width, [pack_weights] returns the
    empty buffer on the empty sequence and [unpack_weights] returns the empty
    sequence on the empty buffer. *)
Theorem empty_buffers (bits : Z) :
  supported bits →
  pack_weights [] bits = Ok [] ∧ unpack_weights [] bits = Ok [].
Proof. intros [->|[->|[->| ->]]]; split; reflexivity. Qed.

Lemma empty_buffers_witness :
  pack_weights [] 8 = Ok [] ∧ unpack_weights [] 8 = Ok [].
Proof. apply (empty_buffers 8). right. right. right. reflexivity. Defined.

(** The run of a loop over [l1 ++ l2] is the run over [l1] followed by the
    run over [l2]. *)
Lemma for_each_app {S} (l1 l2 : list nat) (body : nat → S → result S) (st : S) :
  for_each (l1 ++ l2) body st = for_each l1 body st ≫= for_each l2 body.
Proof.
  revert st. induction l1 as [|i l1 IH]; intros st; cbn [app for_each]; [done |].
  destruct (body i st) as [st'|e]; [| done]. rewrite !bind_Ok. apply IH.
Qed.

Lemma seq_split (n i : nat) :
  (i < n)%nat → seq 0 n = seq 0 i ++ i :: seq (S i) (n - S i).
Proof.
  intros Hi. replace n with (i + S (n - S i))%nat at 1 by lia.
  by rewrite seq_app.
Qed.

Lemma seq_split_le (n j : nat) :
  (j ≤ n)%nat → seq 0 n = seq 0 j ++ seq j (n - j).
Proof.
  intros Hj. replace n with (j + (n - j))%nat at 1 by lia.
  by rewrite seq_app.
Qed.

(** The run of [pack_weights] passes through the state before each step:
    it is the run up to the step for [(i, j)] followed by the rest. *)
Lemma pack_weights_resume (v : tensor) (bits : Z) (i j : nat) :
  (i < Z.to_nat (Z.of_nat (length v) * bits / 8))%nat →
  (j ≤ Z.to_nat (8 / bits))%nat →
  pack_weights v bits = pack_state_before v bits i j ≫= pack_resume v bits i j.
Proof.
  intros Hi Hj. unfold pack_weights, pack_state_before, pack_resume.
  destruct (decide ((Z.of_nat (length v) * bits) mod 8 ≠ 0)) as [Hal|Hal].
  { by destruct (floordiv 8 bits). }
  rewrite (floordiv_nonzero _ 8), !bind_Ok by lia.
  unfold floordiv. destruct (decide (bits = 0)) as [|Hbits]; [done |].
  rewrite !bind_Ok.
  destruct (torch_zeros (Z.of_nat (length v) * bits / 8)) as [packed|e]; [| done].
  rewrite !bind_Ok, for_range_unfold.
  rewrite (seq_split _ i Hi), for_each_app. cbn [for_each].
  destruct (for_each (seq 0 i) _ (packed, 0%nat)) as [st1|e]; [| done].
  rewrite !bind_Ok, for_range_unfold.
  rewrite (seq_split_le _ j Hj), for_each_app.
  destruct (for_each (seq 0 j) _ st1) as [st2|e]; [| done].
  rewrite !bind_Ok.
  destruct (for_each (seq j _) _ st2) as [st3|e]; [| done].
  by rewrite !bind_Ok.
Qed.

Lemma pack_outer_loop_rest (v : tensor) (bits num_steps : Z) (k : nat) :
  ∀ (pre rest : tensor) (idx : nat),
    (idx + k * Z.to_nat num_steps ≤ length v)%nat →
    for_each (seq (length pre) k)
      (fun i => for_range num_steps (pack_body v bits i))
      (pre ++ replicate k 0 ++ rest, idx)
    = Ok (pre ++ pack_chunks bits (Z.to_nat num_steps) k (drop idx v) ++ rest,
          (idx + k * Z.to_nat num_steps)%nat).
Proof.
  induction k as [|k IH]; intros pre rest idx Hlen;
    cbn [for_each seq replicate pack_chunks app].
  - by rewrite Nat.add_0_r.
  - rewrite for_range_unfold.
    rewrite (pack_inner_loop v bits _ _ 0%nat _ idx 0);
      [| by apply list_lookup_middle | lia].
    rewrite bind_Ok, insert_app_r_alt, Nat.sub_diag by done.
    cbn [list_insert insert].
    rewrite (cons_middle _ pre), app_assoc.
    replace (S (length pre)) with (length (pre ++ [pack_byte bits 0
      (take (Z.to_nat num_steps) (drop idx v)) 0]))
      by (rewrite length_app; simpl; lia).
    rewrite IH by lia.
    rewrite <- app_assoc, drop_drop. cbn [app].
    do 2 f_equal. lia.
Qed.

(** The state of the loops of [pack_weights] before the step for [(i, j)]:
    the first [i] bytes are done, byte [i] holds the first [j] elements of
    its chunk, and the counter stands at [i * num_steps + j]. *)
Lemma pack_state_before_value (v : tensor) (bits : Z) (i j : nat) :
  0 < bits →
  (Z.of_nat (length v) * bits) mod 8 = 0 →
  (i < Z.to_nat (Z.of_nat (length v) * bits / 8))%nat →
  (j ≤ Z.to_nat (8 / bits))%nat →
  pack_state_before v bits i j
  = Ok (<[i := pack_byte bits 0 (take j (drop (i * Z.to_nat (8 / bits)) v)) 0]>
          (pack_chunks bits (Z.to_nat (8 / bits)) i v
           ++ replicate (Z.to_nat (Z.of_nat (length v) * bits / 8) - i) 0),
        (i * Z.to_nat (8 / bits) + j)%nat).
Proof.
  intros Hbits Hal Hi Hj. unfold pack_state_before.
  rewrite decide_False by (intros H; by apply H).
  rewrite !floordiv_nonzero, !bind_Ok by lia.
  assert (0 ≤ Z.of_nat (length v) * bits / 8) as Hq by (apply Z.div_pos; lia).
  assert (0 ≤ 8 / bits) as Hr by (apply Z.div_pos; lia).
  rewrite torch_zeros_nonneg, bind_Ok by done.
  set (n := Z.to_nat (Z.of_nat (length v) * bits / 8)) in *.
  set (r := Z.to_nat (8 / bits)) in *.
  assert (n * r ≤ length v)%nat as Hnr.
  { pose proof (Z.mul_div_le (Z.of_nat (length v) * bits) 8 ltac:(lia)).
    pose proof (Z.mul_div_le 8 bits Hbits).
    apply Nat2Z.inj_le. unfold n, r. rewrite Nat2Z.inj_mul, !Z2Nat.id by done.
    nia. }
  replace n with (i + (n - i))%nat at 1 by lia. rewrite replicate_add.
  pose proof (pack_outer_loop_rest v bits (8 / bits) i [] (replicate (n - i) 0)
    0%nat) as Hloop.
  cbn [length app] in Hloop. fold r in Hloop.
  rewrite Hloop, bind_Ok by nia. rewrite drop_0, Nat.add_0_l.
  apply pack_inner_loop; [| nia].
  rewrite lookup_app_r by (by rewrite length_pack_chunks).
  rewrite length_pack_chunks, Nat.sub_diag.
  apply lookup_replicate_2. lia.
Qed.

(** C9. No overflow of the 8-bit carrier in the shift-and-OR step: for a
    supported width, elements in [0, 2^bits - 1] and an aligned length, the
    run of [pack_weights] reaches the step for every output byte [i] and
    sub-position [j < 8 / bits] with its counter at [i * (8 / bits) + j];
    the element read there, shifted left by [bits * j], stays below 256, so
    that the uint8 shift drops no bit and the step ORs the whole shifted
    element into byte [i]. *)
Theorem shift_no_overflow (v : tensor) (bits : Z) (i j : nat) :
  supported bits →
  in_range bits v →
  Z.of_nat (length v) mod (8 / bits) = 0 →
  (i < Z.to_nat (Z.of_nat (length v) * bits / 8))%nat →
  (j < packing_ratio bits)%nat →
  ∃ (packed : tensor) (b x : Z),
    pack_state_before v bits i j
    = Ok (packed, (i * packing_ratio bits + j)%nat)
    ∧ pack_weights v bits
      = pack_state_before v bits i j ≫= pack_resume v bits i j
    ∧ v !! (i * packing_ratio bits + j)%nat = Some x
    ∧ packed !! i = Some b
    ∧ 0 ≤ Z.shiftl x (bits * Z.of_nat j) < 256
    ∧ lshift_u8 x (bits * Z.of_nat j) = Z.shiftl x (bits * Z.of_nat j)
    ∧ pack_body v bits i j (packed, (i * packing_ratio bits + j)%nat)
      = Ok (<[i := Z.lor b (Z.shiftl x (bits * Z.of_nat j))]> packed,
            S (i * packing_ratio bits + j)).
Proof.
  intros Hs Hv Hlen Hi Hj. pose proof (supported_pos _ Hs) as Hbits.
  pose proof (supported_ratio _ Hs) as Hr.
  apply (aligned_length _ _ Hs) in Hlen.
  pose proof (packed_count bits (length v) Hs Hlen) as Hn.
  unfold packing_ratio in *.
  set (n := Z.to_nat (Z.of_nat (length v) * bits / 8)) in *.
  set (r := Z.to_nat (8 / bits)) in *.
  destruct (lookup_lt_is_Some_2 v (i * r + j)) as [x Hx]; [nia |].
  assert (0 ≤ Z.shiftl x (bits * Z.of_nat j) < 256) as Hsh.
  { unfold in_range in Hv. rewrite Forall_lookup in Hv.
    pose proof (Hv _ _ Hx) as Hxr. cbv beta in Hxr.
    rewrite Z.shiftl_mul_pow2 by lia.
    assert (0 < 2 ^ (bits * Z.of_nat j)) by (apply Z.pow_pos_nonneg; lia).
    assert (2 ^ bits * 2 ^ (bits * Z.of_nat j) ≤ 2 ^ 8) as Hle.
    { rewrite <- Z.pow_add_r by lia. apply Z.pow_le_mono_r; [lia |].
      unfold r in Hj. nia. }
    change (2 ^ 8) with 256 in Hle. nia. }
  assert (lshift_u8 x (bits * Z.of_nat j) = Z.shiftl x (bits * Z.of_nat j))
    as Hno by (unfold lshift_u8; by apply Z.mod_small).
  eexists _, _, x.
  split; [apply pack_state_before_value; (done || lia) |].
  split; [apply pack_weights_resume; (done || lia) |].
  split; [done |].
  split.
  { apply list_lookup_insert_eq.
    rewrite length_app, length_pack_chunks, length_replicate. lia. }
  split; [done |]. split; [done |].
  rewrite <- Hno. apply pack_body_ok; [done |].
  apply list_lookup_insert_eq.
  rewrite length_app, length_pack_chunks, length_replicate. lia.
Qed.

Lemma shift_no_overflow_witness :
  ∃ (packed : tensor) (b x : Z),
    pack_state_before [1; 0; 3; 2; 0; 1; 2; 3] 2 1 3
    = Ok (packed, (1 * packing_ratio 2 + 3)%nat)
    ∧ pack_weights [1; 0; 3; 2; 0; 1; 2; 3] 2
      = pack_state_before [1; 0; 3; 2; 0; 1; 2; 3] 2 1 3
        ≫= pack_resume [1; 0; 3; 2; 0; 1; 2; 3] 2 1 3
    ∧ [1; 0; 3; 2; 0; 1; 2; 3] !! (1 * packing_ratio 2 + 3)%nat = Some x
    ∧ packed !! 1%nat = Some b
    ∧ 0 ≤ Z.shiftl x (2 * Z.of_nat 3) < 256
    ∧ lshift_u8 x (2 * Z.of_nat 3) = Z.shiftl x (2 * Z.of_nat 3)
    ∧ pack_body [1; 0; 3; 2; 0; 1; 2; 3] 2 1 3 (packed, (1 * packing_ratio 2 + 3)%nat)
      = Ok (<[1%nat := Z.lor b (Z.shiftl x (2 * Z.of_nat 3))]> packed,
            S (1 * packing_ratio 2 + 3)).
Proof.
  apply (shift_no_overflow [1; 0; 3; 2; 0; 1; 2; 3] 2 1 3).
  - right. left. reflexivity.
  - repeat constructor; simpl; lia.
  - reflexivity.
  - vm_compute. lia.
  - vm_compute. lia.
Defined.

(** C10. Range of the unpacked elements: for a supported width
    [unpack_weights] returns on every byte sequence, and every element of
    its result lies in [0, 2^bits - 1]. *)
Theorem unpack_output_in_range (p : tensor) (bits : Z) :
  supported bits →
  ∃ u, unpack_weights p bits = Ok u ∧ in_range bits u.
Proof.
  intros Hs. eexists. split; [by apply unpack_weights_supported |].
  apply in_range_unpack_bytes. apply supported_pos in Hs. lia.
Qed.

Lemma unpack_output_in_range_witness :
  ∃ u, unpack_weights [177; 255; 6] 4 = Ok u ∧ in_range 4 u.
Proof.
  apply (unpack_output_in_range [177; 255; 6] 4).
  right. right. left. reflexivity.
Defined.

(** * Further properties of the two functions *)

(** ** Widths outside the supported set *)

(** The sizes given to [torch.zeros] stay in the 64-bit range for a tensor
    of fewer than 2^60 cells and a width of at most 64. *)
Lemma sizes_in_64_bit_range (len : nat) (bits : Z) :
  Z.of_nat len < 2 ^ 60 →
  0 < bits ≤ 64 →
  0 ≤ Z.of_nat len * bits / 8 < 2 ^ 63 ∧ 0 ≤ Z.of_nat len * 8 / bits < 2 ^ 63.
Proof.
  intros Hlen Hbits.
  change (2 ^ 60) with 1152921504606846976 in Hlen.
  change (2 ^ 63) with 9223372036854775808.
  split; split.
  - apply Z.div_pos; lia.
  - apply Z.div_lt_upper_bound; [lia |]. nia.
  - apply Z.div_pos; lia.
  - apply Z.div_lt_upper_bound; [lia |]. nia.
Qed.

Lemma pack_weights_zero_width (v : tensor) :
  pack_weights v 0 = Raise ZeroDivisionError.
Proof. unfold pack_weights. rewrite Z.mul_0_r. reflexivity. Qed.

Lemma unpack_weights_zero_width (p : tensor) :
  unpack_weights p 0 = Raise ZeroDivisionError.
Proof. reflexivity. Qed.

Lemma negative_count (len : nat) (k bits : Z) :
  0 < k → bits < 0 → len ≠ 0%nat → Z.of_nat len * k / bits < 0.
Proof.
  intros Hk Hbits Hlen.
  pose proof (Z.div_mod (Z.of_nat len * k) bits ltac:(lia)).
  pose proof (Z.mod_neg_bound (Z.of_nat len * k) bits Hbits). nia.
Qed.

(** With a negative width a non-empty input never gets past the allocation
    of the output. *)
Lemma pack_weights_negative_width (v : tensor) (bits : Z) :
  bits < 0 → v ≠ [] → ∃ e, pack_weights v bits = Raise e.
Proof.
  intros Hbits Hv. unfold pack_weights.
  destruct (decide ((Z.of_nat (length v) * bits) mod 8 ≠ 0)) as [Hal|Hal].
  - rewrite floordiv_nonzero, bind_Ok by lia. by eexists.
  - rewrite !floordiv_nonzero, !bind_Ok by lia.
    assert (Z.of_nat (length v) * bits / 8 < 0) as Hneg.
    { destruct v as [|x v]; [done |].
      apply Z.div_lt_upper_bound; [lia |]. simpl length. nia. }
    unfold torch_zeros. rewrite decide_True by done. by eexists.
Qed.

Lemma unpack_weights_negative_width (p : tensor) (bits : Z) :
  bits < 0 → p ≠ [] → unpack_weights p bits = Raise RuntimeError.
Proof.
  intros Hbits Hp. unfold unpack_weights.
  rewrite !floordiv_nonzero, !bind_Ok by lia.
  unfold torch_zeros. rewrite decide_True; [done |].
  apply negative_count; [lia | done |]. by destruct p.
Qed.

Lemma pack_weights_negative_empty (bits : Z) :
  bits < 0 → pack_weights [] bits = Ok [].
Proof.
  intros Hbits. unfold pack_weights. cbn [length]. rewrite Z.mul_0_l.
  rewrite decide_False by (intros H; by apply H).
  rewrite !floordiv_nonzero, !bind_Ok by lia. reflexivity.
Qed.

Lemma pow2_minus_1_float (bits : Z) :
  - float_conversion_limit < bits < 0 → pow2_minus_1 bits = Ok PyFloat.
Proof.
  intros H. unfold pow2_minus_1. rewrite decide_False by lia.
  by rewrite decide_False by lia.
Qed.

Lemma pow2_minus_1_overflow (bits : Z) :
  bits ≤ - float_conversion_limit → pow2_minus_1 bits = Raise OverflowError.
Proof.
  intros H. unfold pow2_minus_1.
  assert (0 < float_conversion_limit) by done.
  rewrite decide_False by lia. by rewrite decide_True.
Qed.

Lemma unpack_weights_negative_empty (bits : Z) :
  - float_conversion_limit < bits < 0 → unpack_weights [] bits = Ok [].
Proof.
  intros Hbits. unfold unpack_weights. cbn [length]. rewrite Z.mul_0_l.
  rewrite !floordiv_nonzero, !bind_Ok by lia.
  change (torch_zeros (0 / bits)) with (Ok (@nil Z)). rewrite bind_Ok.
  rewrite pow2_minus_1_float, bind_Ok by done. reflexivity.
Qed.

(** A negative width too large for a float stops [unpack_weights] at the
    mask, also on the empty input. *)
Lemma unpack_weights_overflow_empty (bits : Z) :
  bits ≤ - float_conversion_limit →
  unpack_weights [] bits = Raise OverflowError.
Proof.
  intros Hbits. assert (0 < float_conversion_limit) by done.
  unfold unpack_weights. cbn [length]. rewrite Z.mul_0_l.
  rewrite !floordiv_nonzero, !bind_Ok by lia.
  change (torch_zeros (0 / bits)) with (Ok (@nil Z)). rewrite bind_Ok.
  by rewrite pow2_minus_1_overflow.
Qed.

Lemma raise_not_succeeds {A} (m : result A) (e : exn) :
  m = Raise e → ¬ succeeds m.
Proof. intros -> [a Ha]. discriminate. Qed.

(** X1. The inputs [pack_weights] returns on, for a width of at most 64: a
    positive width with [len * bits] a multiple of 8, or a negative width
    with the empty sequence; on every other input it raises. *)
Theorem pack_weights_returns_iff (v : tensor) (bits : Z) :
  bits ≤ 64 →
  succeeds (pack_weights v bits)
  ↔ (0 < bits ∧ (Z.of_nat (length v) * bits) mod 8 = 0) ∨ (bits < 0 ∧ v = []).
Proof.
  intros _. split.
  - intros Hok. destruct (Z.lt_trichotomy bits 0) as [Hb|[->|Hb]].
    + right. split; [done |]. destruct v as [|x v]; [done |].
      destruct (pack_weights_negative_width (x :: v) bits Hb) as [e He]; [done |].
      by apply raise_not_succeeds in He.
    + by apply (raise_not_succeeds _ _ (pack_weights_zero_width v)) in Hok.
    + left. split; [done |].
      destruct (decide ((Z.of_nat (length v) * bits) mod 8 = 0)) as [|Hal]; [done |].
      apply (pack_weights_misaligned v bits) in Hal; [| lia].
      by apply raise_not_succeeds in Hal.
  - intros [[Hb Hal]|[Hb ->]].
    + eexists. by apply pack_weights_summary.
    + eexists. by apply pack_weights_negative_empty.
Qed.

Lemma pack_weights_returns_iff_witness :
  succeeds (pack_weights [1; 2; 3; 4; 5; 6; 7; 0] 3)
  ↔ (0 < 3 ∧ (Z.of_nat 8 * 3) mod 8 = 0) ∨ (3 < 0 ∧ [1; 2; 3; 4; 5; 6; 7; 0] = []).
Proof. apply (pack_weights_returns_iff [1; 2; 3; 4; 5; 6; 7; 0] 3). lia. Defined.

(** X2. The inputs [unpack_weights] returns on, for a width of at most 64:
    every byte sequence for a positive width; for a negative width only the
    empty one, and only when the width is small enough for [2 ** bits] to be
    a float.  It raises for width 0. *)
Theorem unpack_weights_returns_iff (p : tensor) (bits : Z) :
  bits ≤ 64 →
  succeeds (unpack_weights p bits)
  ↔ 0 < bits ∨ (- float_conversion_limit < bits < 0 ∧ p = []).
Proof.
  intros _. split.
  - intros Hok. destruct (Z.lt_trichotomy bits 0) as [Hb|[->|Hb]].
    + right. destruct p as [|b p].
      * split; [| done]. split; [| done].
        destruct (decide (bits ≤ - float_conversion_limit)) as [Hov|]; [| lia].
        by apply (raise_not_succeeds _ _
          (unpack_weights_overflow_empty bits Hov)) in Hok.
      * by apply (raise_not_succeeds _ _
          (unpack_weights_negative_width (b :: p) bits Hb ltac:(done))) in Hok.
    + by apply (raise_not_succeeds _ _ (unpack_weights_zero_width p)) in Hok.
    + by left.
  - intros [Hb|[Hb ->]].
    + eexists. by apply unpack_weights_summary.
    + eexists. by apply unpack_weights_negative_empty.
Qed.

Lemma unpack_weights_returns_iff_witness :
  succeeds (unpack_weights [177; 27] 5)
  ↔ 0 < 5 ∨ (- float_conversion_limit < 5 < 0 ∧ [177; 27] = []).
Proof. apply (unpack_weights_returns_iff [177; 27] 5). lia. Defined.

(** X3. Whatever the width and the input, a buffer returned by
    [pack_weights] is a sequence of bytes: every cell lies in [0, 256). *)
Theorem pack_weights_returns_bytes (v p : tensor) (bits : Z) :
  pack_weights v bits = Ok p → uint8_tensor p.
Proof.
  intros Hp. destruct (Z.lt_trichotomy bits 0) as [Hb|[->|Hb]].
  - destruct v as [|x v].
    + rewrite pack_weights_negative_empty in Hp by done.
      injection Hp as <-. constructor.
    + destruct (pack_weights_negative_width (x :: v) bits Hb) as [e He]; [done |].
      rewrite He in Hp. discriminate.
  - rewrite pack_weights_zero_width in Hp. discriminate.
  - destruct (decide ((Z.of_nat (length v) * bits) mod 8 = 0)) as [Hal|Hal].
    + rewrite pack_weights_summary in Hp by done. injection Hp as <-.
      apply uint8_pack_chunks.
    + rewrite pack_weights_misaligned in Hp by (done || lia). discriminate.
Qed.

Lemma pack_weights_returns_bytes_witness : uint8_tensor [17].
Proof. apply (pack_weights_returns_bytes [1; 4; 0; 0] [17] 2). reflexivity. Defined.

Lemma pack_chunks_ratio_0 (bits : Z) (n : nat) :
  ∀ v : list Z, pack_chunks bits 0 n v = replicate n 0.
Proof.
  induction n as [|n IH]; intros v; cbn [pack_chunks replicate]; [done |].
  by rewrite take_0, drop_0, IH.
Qed.

Lemma unpack_bytes_ratio_0 (bits : Z) (p : list Z) : unpack_bytes bits 0 p = [].
Proof.
  unfold unpack_bytes. induction p as [|b p IH]; [done |].
  by rewrite bind_cons, IH.
Qed.

(** X4. A width from 9 to 64 leaves the inner loops empty: [pack_weights]
    reads no element and returns [len * bits // 8] zero bytes on an aligned
    input, and [unpack_weights] returns [len * 8 // bits] zeros. *)
Theorem wide_width_returns_zeros (v p : tensor) (bits : Z) :
  8 < bits ≤ 64 →
  ((Z.of_nat (length v) * bits) mod 8 = 0 →
     pack_weights v bits
     = Ok (replicate (Z.to_nat (Z.of_nat (length v) * bits / 8)) 0))
  ∧ unpack_weights p bits
    = Ok (replicate (Z.to_nat (Z.of_nat (length p) * 8 / bits)) 0).
Proof.
  intros Hbits.
  assert (8 / bits = 0) as Hr by (apply Z.div_small; lia).
  split.
  - intros Hal. rewrite pack_weights_summary by (done || lia).
    rewrite Hr. change (Z.to_nat 0) with 0%nat. by rewrite pack_chunks_ratio_0.
  - rewrite unpack_weights_summary by lia.
    rewrite Hr. change (Z.to_nat 0) with 0%nat.
    by rewrite unpack_bytes_ratio_0, Nat.mul_0_r, Nat.sub_0_r.
Qed.

Lemma wide_width_returns_zeros_witness :
  (pack_weights [7; 9] 16 = Ok (replicate (Z.to_nat (Z.of_nat 2 * 16 / 8)) 0))
  ∧ unpack_weights [177; 255; 3] 12
    = Ok (replicate (Z.to_nat (Z.of_nat 3 * 8 / 12)) 0).
Proof.
  split.
  - apply (proj1 (wide_width_returns_zeros [7; 9] [] 16 ltac:(lia))). reflexivity.
  - apply (proj2 (wide_width_returns_zeros [] [177; 255; 3] 12 ltac:(lia))).
Defined.

(** ** Consequences of the two byte-level laws *)

(** X5. Packing inverts unpacking on every byte buffer, not only on those
    that came out of [pack_weights]: for a supported width and bytes in
    [0, 256), packing the unpacked sequence returns the buffer. *)
Theorem pack_unpack_any_buffer (p : tensor) (bits : Z) :
  supported bits →
  uint8_tensor p →
  ∃ u, unpack_weights p bits = Ok u ∧ pack_weights u bits = Ok p.
Proof.
  intros Hs Hp. eexists. split; [by apply unpack_weights_supported |].
  by apply pack_unpack_weights.
Qed.

Lemma pack_unpack_any_buffer_witness :
  ∃ u, unpack_weights [200; 0; 255] 1 = Ok u ∧ pack_weights u 1 = Ok [200; 0; 255].
Proof.
  apply (pack_unpack_any_buffer [200; 0; 255] 1).
  - left. reflexivity.
  - repeat constructor; unfold uint8; lia.
Defined.

Lemma unpack_bytes_pack_weights (v p : tensor) (bits : Z) :
  supported bits →
  in_range bits v →
  pack_weights v bits = Ok p →
  unpack_bytes bits (packing_ratio bits) p = v.
Proof.
  intros Hs Hv Hp. pose proof (supported_pos _ Hs) as Hbits.
  destruct (decide ((Z.of_nat (length v) * bits) mod 8 = 0)) as [Hal|Hal].
  - rewrite pack_weights_summary in Hp by done. injection Hp as <-.
    fold (packing_ratio bits).
    rewrite unpack_pack_chunks by (rewrite ?packed_count; done).
    rewrite packed_count by done. by rewrite firstn_all.
  - rewrite pack_weights_misaligned in Hp by (done || lia). discriminate.
Qed.

(** X6. Out-of-range elements are lost silently: for a supported width and
    an aligned sequence with an element outside [0, 2^bits - 1],
    [pack_weights] returns a buffer, [unpack_weights] returns a sequence from
    it, and that sequence differs from the one packed. *)
Theorem out_of_range_not_restored (v : tensor) (bits : Z) :
  supported bits →
  (Z.of_nat (length v) * bits) mod 8 = 0 →
  ¬ in_range bits v →
  ∃ p u, pack_weights v bits = Ok p ∧ unpack_weights p bits = Ok u ∧ u ≠ v.
Proof.
  intros Hs Hal Hv. pose proof (supported_pos _ Hs) as Hbits.
  eexists _, _. split; [by apply pack_weights_summary |].
  split; [by apply unpack_weights_supported |].
  intros Heq. apply Hv. rewrite <- Heq. apply in_range_unpack_bytes. lia.
Qed.

Lemma out_of_range_not_restored_witness :
  ∃ p u, pack_weights [1; 4; 0; 0] 2 = Ok p ∧ unpack_weights p 2 = Ok u
         ∧ u ≠ [1; 4; 0; 0].
Proof.
  apply (out_of_range_not_restored [1; 4; 0; 0] 2).
  - right. left. reflexivity.
  - reflexivity.
  - intros H. apply Forall_cons in H as [_ H]. apply Forall_cons in H as [H _].
    simpl in H. lia.
Defined.

(** X7. [pack_weights] is injective on the sequences it is meant for: for a
    supported width, two sequences with all elements in [0, 2^bits - 1] that
    pack to the same buffer are equal. *)
Theorem pack_weights_injective (v w p : tensor) (bits : Z) :
  supported bits →
  in_range bits v →
  in_range bits w →
  pack_weights v bits = Ok p →
  pack_weights w bits = Ok p →
  v = w.
Proof.
  intros Hs Hv Hw Hpv Hpw.
  rewrite <- (unpack_bytes_pack_weights v p bits) by done.
  by rewrite <- (unpack_bytes_pack_weights w p bits) by done.
Qed.

Lemma pack_weights_injective_witness : [9; 3] = [9; 3].
Proof.
  apply (pack_weights_injective [9; 3] [9; 3] [57] 4).
  - right. right. left. reflexivity.
  - repeat constructor; simpl; lia.
  - repeat constructor; simpl; lia.
  - reflexivity.
  - reflexivity.
Defined.

(** ** Concatenation *)

Lemma pack_chunks_app (bits : Z) (r n1 n2 : nat) :
  ∀ v1 v2 : list Z,
    length v1 = (n1 * r)%nat →
    pack_chunks bits r (n1 + n2) (v1 ++ v2)
    = pack_chunks bits r n1 v1 ++ pack_chunks bits r n2 v2.
Proof.
  induction n1 as [|n1 IH]; intros v1 v2 Hlen.
  - by apply nil_length_inv in Hlen as ->.
  - cbn [Nat.add pack_chunks app].
    rewrite take_app_le, drop_app_le by lia.
    rewrite IH by (rewrite length_drop; lia). done.
Qed.

(** X8. [pack_weights] commutes with concatenation for a supported width:
    when two sequences are packed to [p1] and [p2], their concatenation is
    packed to [p1 ++ p2]. *)
Theorem pack_weights_concatenation (v1 v2 p1 p2 : tensor) (bits : Z) :
  supported bits →
  pack_weights v1 bits = Ok p1 →
  pack_weights v2 bits = Ok p2 →
  pack_weights (v1 ++ v2) bits = Ok (p1 ++ p2).
Proof.
  intros Hs H1 H2. pose proof (supported_pos _ Hs) as Hbits.
  destruct (decide ((Z.of_nat (length v1) * bits) mod 8 = 0)) as [Hal1|Hal1];
    [| rewrite pack_weights_misaligned in H1 by (done || lia); discriminate].
  destruct (decide ((Z.of_nat (length v2) * bits) mod 8 = 0)) as [Hal2|Hal2];
    [| rewrite pack_weights_misaligned in H2 by (done || lia); discriminate].
  rewrite pack_weights_summary in H1, H2 by done.
  injection H1 as <-. injection H2 as <-.
  assert ((Z.of_nat (length (v1 ++ v2)) * bits) mod 8 = 0) as Hal.
  { rewrite length_app, Nat2Z.inj_add, Z.mul_add_distr_r.
    rewrite Z.add_mod, Hal1, Hal2 by lia. done. }
  rewrite pack_weights_summary by done. f_equal.
  fold (packing_ratio bits).
  replace (Z.to_nat (Z.of_nat (length (v1 ++ v2)) * bits / 8))
    with (Z.to_nat (Z.of_nat (length v1) * bits / 8)
          + Z.to_nat (Z.of_nat (length v2) * bits / 8))%nat.
  - apply pack_chunks_app. by rewrite packed_count.
  - rewrite length_app, Nat2Z.inj_add, Z.mul_add_distr_r.
    pose proof (Z.div_mod (Z.of_nat (length v1) * bits) 8 ltac:(lia)).
    pose proof (Z.div_mod (Z.of_nat (length v2) * bits) 8 ltac:(lia)).
    pose proof (Z.div_mod (Z.of_nat (length v1) * bits
                           + Z.of_nat (length v2) * bits) 8 ltac:(lia)) as H12.
    rewrite Z.add_mod, Hal1, Hal2 in H12 by lia.
    change ((0 + 0) mod 8) with 0 in H12. lia.
Qed.

Lemma pack_weights_concatenation_witness :
  pack_weights ([1; 0; 3; 2] ++ [3; 2; 1; 0]) 2 = Ok ([177] ++ [27]).
Proof.
  apply (pack_weights_concatenation [1; 0; 3; 2] [3; 2; 1; 0] [177] [27] 2).
  - right. left. reflexivity.
  - reflexivity.
  - reflexivity.
Defined.

(** X9. [unpack_weights] commutes with concatenation for a supported width:
    the concatenation of two byte buffers is unpacked to the concatenation
    of their unpacked sequences. *)
Theorem unpack_weights_concatenation (q1 q2 : tensor) (bits : Z) :
  supported bits →
  ∃ u1 u2, unpack_weights q1 bits = Ok u1 ∧ unpack_weights q2 bits = Ok u2
           ∧ unpack_weights (q1 ++ q2) bits = Ok (u1 ++ u2).
Proof.
  intros Hs. eexists _, _. rewrite !unpack_weights_supported by done.
  split; [done |]. split; [done |].
  unfold unpack_bytes. by rewrite bind_app.
Qed.

Lemma unpack_weights_concatenation_witness :
  ∃ u1 u2, unpack_weights [57] 4 = Ok u1 ∧ unpack_weights [240; 1] 4 = Ok u2
           ∧ unpack_weights ([57] ++ [240; 1]) 4 = Ok (u1 ++ u2).
Proof.
  apply (unpack_weights_concatenation [57] [240; 1] 4).
  right. right. left. reflexivity.
Defined.

(** ** Width 8 *)

Lemma unpack_bytes_width_8 (p : tensor) :
  uint8_tensor p → unpack_bytes 8 (packing_ratio 8) p = p.
Proof.
  unfold unpack_bytes. induction 1 as [|b p Hb Hp IH]; [done |].
  rewrite bind_cons, IH. change (packing_ratio 8) with 1%nat.
  unfold unpack_byte, rshift_u8. cbn [seq fmap list_fmap app].
  change (8 * Z.of_nat 0) with 0. rewrite Z.shiftr_0_r.
  change (2 ^ 8 - 1) with (Z.ones 8). f_equal. by apply uint8_iff_land.
Qed.

(** X10. At width 8 nothing is packed: on a sequence of bytes both
    [pack_weights] and [unpack_weights] return the sequence unchanged. *)
Theorem width_8_is_identity (t : tensor) :
  uint8_tensor t →
  pack_weights t 8 = Ok t ∧ unpack_weights t 8 = Ok t.
Proof.
  intros Ht.
  assert (supported 8) as Hs by (right; right; right; reflexivity).
  split.
  - rewrite <- (unpack_bytes_width_8 t Ht) at 1. by apply pack_unpack_weights.
  - rewrite unpack_weights_supported by done. f_equal.
    by apply unpack_bytes_width_8.
Qed.

Lemma width_8_is_identity_witness :
  pack_weights [0; 255; 128; 7] 8 = Ok [0; 255; 128; 7]
  ∧ unpack_weights [0; 255; 128; 7] 8 = Ok [0; 255; 128; 7].
Proof.
  apply (width_8_is_identity [0; 255; 128; 7]).
  repeat constructor; unfold uint8; lia.
Defined.

(** ** The layout, element by element *)

Lemma lookup_pack_chunks (bits : Z) (r n : nat) :
  ∀ (i : nat) (v : list Z),
    (i < n)%nat →
    pack_chunks bits r n v !! i
    = Some (pack_byte bits 0 (take r (drop (i * r) v)) 0).
Proof.
  induction n as [|n IH]; intros i v Hi; [lia |].
  cbn [pack_chunks]. destruct i as [|i].
  - by rewrite Nat.mul_0_l, drop_0.
  - cbn [lookup list_lookup]. rewrite (IH i) by lia.
    by rewrite drop_drop.
Qed.

Lemma lookup_unpack_byte (bits mask : Z) (r j : nat) (b : Z) :
  (j < r)%nat →
  unpack_byte bits mask 0 r b !! j
  = Some (Z.land (rshift_u8 b (bits * Z.of_nat j)) mask).
Proof.
  intros Hj. unfold unpack_byte.
  rewrite list_lookup_fmap, lookup_seq_lt by done. done.
Qed.

Lemma lookup_unpack_bytes (bits : Z) (r j : nat) (b : Z) :
  (j < r)%nat →
  ∀ (p : list Z) (i : nat),
    p !! i = Some b →
    unpack_bytes bits r p !! (i * r + j)%nat
    = Some (Z.land (rshift_u8 b (bits * Z.of_nat j)) (2 ^ bits - 1)).
Proof.
  intros Hj. unfold unpack_bytes.
  induction p as [|b0 p IH]; intros i Hb; [done |].
  rewrite bind_cons. destruct i as [|i].
  - injection Hb as ->. rewrite lookup_app_l by (by rewrite length_unpack_byte).
    by apply lookup_unpack_byte.
  - rewrite lookup_app_r by (rewrite length_unpack_byte; lia).
    rewrite length_unpack_byte.
    replace (S i * r + j - r)%nat with (i * r + j)%nat by lia.
    by apply IH.
Qed.

(** X11. The layout of a packed byte, element by element: for a supported
    width and elements in [0, 2^bits - 1], the element at index
    [i * (8 // bits) + j] of the input is read back from output byte [i] by
    shifting it right by [bits * j] and masking with [2^bits - 1]. *)
Theorem packed_field_layout (v p : tensor) (bits : Z) (i j : nat) (x : Z) :
  supported bits →
  in_range bits v →
  pack_weights v bits = Ok p →
  (j < packing_ratio bits)%nat →
  v !! (i * packing_ratio bits + j)%nat = Some x →
  ∃ b, p !! i = Some b
       ∧ Z.land (Z.shiftr b (bits * Z.of_nat j)) (2 ^ bits - 1) = x.
Proof.
  intros Hs Hv Hp Hj Hx. pose proof (supported_pos _ Hs) as Hbits.
  destruct (decide ((Z.of_nat (length v) * bits) mod 8 = 0)) as [Hal|Hal];
    [| rewrite pack_weights_misaligned in Hp by (done || lia); discriminate].
  rewrite pack_weights_summary in Hp by done. injection Hp as <-.
  fold (packing_ratio bits).
  pose proof (packed_count bits (length v) Hs Hal) as Hn.
  pose proof (lookup_lt_Some _ _ _ Hx) as Hlt.
  set (n := Z.to_nat (Z.of_nat (length v) * bits / 8)) in *.
  set (r := packing_ratio bits) in *.
  assert (i < n)%nat as Hi by nia.
  eexists. split; [by apply lookup_pack_chunks |].
  set (c := take r (drop (i * r) v)).
  assert (chunk_roundtrip bits c) as Hc.
  { apply unpack_pack_byte; [done | |].
    - unfold c. rewrite length_take, length_drop. fold r. nia.
    - unfold c. by apply Forall_take, Forall_drop. }
  unfold chunk_roundtrip in Hc. fold r in Hc.
  apply (f_equal (fun l => l !! j)) in Hc.
  rewrite lookup_unpack_byte in Hc by done.
  unfold c in Hc at 2. rewrite lookup_take_lt, lookup_drop, Hx in Hc by done.
  by injection Hc.
Qed.

Lemma packed_field_layout_witness :
  ∃ b, [177; 27] !! 1%nat = Some b
       ∧ Z.land (Z.shiftr b (2 * Z.of_nat 2)) (2 ^ 2 - 1) = 1.
Proof.
  apply (packed_field_layout [1; 0; 3; 2; 3; 2; 1; 0] [177; 27] 2 1 2 1).
  - right. left. reflexivity.
  - repeat constructor; simpl; lia.
  - reflexivity.
  - vm_compute. lia.
  - reflexivity.
Defined.

(** X12. What [unpack_weights] writes, element by element: for every
    positive width, byte [b] at index [i] of the input and sub-position
    [j < 8 // bits], the output holds [(b >> (bits * j)) & (2^bits - 1)] at
    index [i * (8 // bits) + j]. *)
Theorem unpacked_element (p : tensor) (bits : Z) (i j : nat) (b : Z) :
  0 < bits →
  p !! i = Some b →
  (j < Z.to_nat (8 / bits))%nat →
  ∃ u, unpack_weights p bits = Ok u
       ∧ u !! (i * Z.to_nat (8 / bits) + j)%nat
         = Some (Z.land (Z.shiftr b (bits * Z.of_nat j)) (2 ^ bits - 1)).
Proof.
  intros Hbits Hb Hj. eexists. split; [by apply unpack_weights_summary |].
  pose proof (lookup_lt_Some _ _ _ Hb) as Hi.
  rewrite lookup_app_l by (rewrite length_unpack_bytes; nia).
  by apply lookup_unpack_bytes.
Qed.

Lemma unpacked_element_witness :
  ∃ u, unpack_weights [177; 27] 3 = Ok u
       ∧ u !! (1 * Z.to_nat (8 / 3) + 1)%nat
         = Some (Z.land (Z.shiftr 27 (3 * Z.of_nat 1)) (2 ^ 3 - 1)).
Proof.
  apply (unpacked_element [177; 27] 3 1 1 27).
  - lia.
  - reflexivity.
  - vm_compute. lia.
Defined.

(** X13. For every width from 1 to 64 [unpack_weights] returns
    [len * 8 // bits] cells, and the cells from index [len * (8 // bits)] on,
    which the loops never reach when [bits] does not divide 8, are 0. *)
Theorem unpacked_unreached_cells (p : tensor) (bits : Z) :
  0 < bits ≤ 64 →
  ∃ u, unpack_weights p bits = Ok u
       ∧ Z.of_nat (length u) = Z.of_nat (length p) * 8 / bits
       ∧ ∀ m, (length p * Z.to_nat (8 / bits) ≤ m < length u)%nat →
              u !! m = Some 0.
Proof.
  intros [Hbits _]. eexists. split; [by apply unpack_weights_summary |].
  assert (0 ≤ Z.of_nat (length p) * 8 / bits) as Hq by (apply Z.div_pos; lia).
  assert (0 ≤ 8 / bits) as Hr by (apply Z.div_pos; lia).
  assert (length p * Z.to_nat (8 / bits)
          ≤ Z.to_nat (Z.of_nat (length p) * 8 / bits))%nat as Hle.
  { pose proof (Z.mul_div_le 8 bits Hbits).
    apply Nat2Z.inj_le. rewrite Nat2Z.inj_mul, !Z2Nat.id by done.
    apply Z.div_le_lower_bound; [done | nia]. }
  rewrite length_app, length_unpack_bytes, length_replicate. split; [lia |].
  intros m Hm.
  rewrite lookup_app_r by (rewrite length_unpack_bytes; lia).
  apply lookup_replicate_2. rewrite length_unpack_bytes. lia.
Qed.

Lemma unpacked_unreached_cells_witness :
  ∃ u, unpack_weights [177; 27; 255] 3 = Ok u
       ∧ Z.of_nat (length u) = Z.of_nat 3 * 8 / 3
       ∧ ∀ m, (3 * Z.to_nat (8 / 3) ≤ m < length u)%nat → u !! m = Some 0.
Proof. apply (unpacked_unreached_cells [177; 27; 255] 3). lia. Defined.

Lemma pack_chunks_take (bits : Z) (r n : nat) :
  ∀ v : list Z,
    pack_chunks bits r n (take (n * r) v) = pack_chunks bits r n v.
Proof.
  induction n as [|n IH]; intros v; [done |].
  cbn [pack_chunks]. change (S n * r)%nat with (r + n * r)%nat.
  rewrite take_take, Nat.min_l by lia.
  by rewrite <- take_drop_commute, IH.
Qed.

(** X14. For every width from 1 to 64 [pack_weights] reads only the first
    [(len * bits // 8) * (8 // bits)] elements: two aligned sequences of the
    same length that agree on them are packed to the same buffer.  When
    [bits] does not divide 8 the elements after them are dropped. *)
Theorem pack_ignores_unread_tail (v w : tensor) (bits : Z) :
  0 < bits ≤ 64 →
  length v = length w →
  (Z.of_nat (length v) * bits) mod 8 = 0 →
  take (Z.to_nat (Z.of_nat (length v) * bits / 8) * Z.to_nat (8 / bits)) v
  = take (Z.to_nat (Z.of_nat (length v) * bits / 8) * Z.to_nat (8 / bits)) w →
  succeeds (pack_weights v bits) ∧ pack_weights v bits = pack_weights w bits.
Proof.
  intros [Hbits _] Hlen Hal Htake.
  split; [eexists; by apply pack_weights_summary |].
  rewrite (pack_weights_summary v), (pack_weights_summary w)
    by (done || by rewrite <- Hlen).
  rewrite <- Hlen. f_equal.
  by rewrite <- (pack_chunks_take _ _ _ v), Htake, pack_chunks_take.
Qed.

Lemma pack_ignores_unread_tail_witness :
  succeeds (pack_weights [1; 2; 3; 4; 5; 6; 7; 0] 3)
  ∧ pack_weights [1; 2; 3; 4; 5; 6; 7; 0] 3 = pack_weights [1; 2; 3; 4; 5; 6; 0; 9] 3.
Proof.
  apply (pack_ignores_unread_tail [1; 2; 3; 4; 5; 6; 7; 0] [1; 2; 3; 4; 5; 6; 0; 9] 3).
  - lia.
  - reflexivity.
  - reflexivity.
  - reflexivity.
Defined.
